(** * ml-diff: the word-level diff of [src/app/page.tsx]

    A shallow embedding of [handleCompare] and [computeDiff], with the
    JavaScript built-ins they call ([String.prototype.trim] and
    [String.prototype.split] at the separator [/(\s+)/]), and the
    properties of the alignment they compute. *)

From Stdlib Require Import String Ascii NArith.
From stdpp Require Import base decidable numbers option list.

Set Default Proof Using "Type".
Open Scope nat_scope.

(** ** JavaScript strings *)

(** A JavaScript string is a finite sequence of UTF-16 code units; [===]
    on two strings compares these sequences. *)
Definition char16 : Type := N.
Definition jsstring : Type := list char16.

(** An ASCII literal as a JavaScript string, for the examples. *)
Definition js (s : string) : jsstring := N_of_ascii <$> list_ascii_of_string s.

(** The class [\s] of a regular expression without the [u] flag: the
    WhiteSpace and LineTerminator code points of ECMAScript.  The same set
    is what [trim] strips. *)
Definition is_ws (c : char16) : bool :=
  ((9 <=? c) && (c <=? 13) ||
   (c =? 32) || (c =? 160) || (c =? 5760) ||
   ((8192 <=? c) && (c <=? 8202)) ||
   (c =? 8232) || (c =? 8233) || (c =? 8239) || (c =? 8287) ||
   (c =? 12288) || (c =? 65279))%N.

Definition non_ws (c : char16) : bool := negb (is_ws c).

(** [s.trim()]: the string without its leading and trailing white space. *)
Fixpoint trimStart (s : jsstring) : jsstring :=
  match s with
  | c :: s' => if is_ws c then trimStart s' else s
  | [] => []
  end.

Definition trimEnd (s : jsstring) : jsstring := reverse (trimStart (reverse s)).

Definition trim (s : jsstring) : jsstring := trimEnd (trimStart s).

(** [s.split(/(\s+)/)], after the steps of [RegExp.prototype[Symbol.split]]:
    the string is scanned from the left with [word] holding the substring
    from the end [p] of the last separator to the scan position [q].  When
    the separator matches at [q] (the code unit there is white space), the
    substring [word] is pushed, the greedy match [\s+] is consumed, its
    one capture group (the whole match, held in [run]) is pushed, and the
    scan resumes with [p] and [q] at the end of the match.  At the end of
    the string the substring from [p] is pushed, empty or not.  The empty
    string takes the same path: the separator does not match it, and the
    result is the one-element array holding it.  No limit is passed, so
    the array is cut at [2^32 - 1] entries only, more than the length an
    engine allows a string; the cut is not modelled. *)
Fixpoint split_word (word s : jsstring) : list jsstring :=
  match s with
  | [] => [word]
  | c :: s' =>
      if is_ws c then word :: split_sep [c] s' else split_word (word ++ [c]) s'
  end
with split_sep (run s : jsstring) : list jsstring :=
  match s with
  | [] => [run; []]
  | c :: s' =>
      if is_ws c then split_sep (run ++ [c]) s' else run :: split_word [c] s'
  end.

Definition split (s : jsstring) : list jsstring := split_word [] s.

(** ** Segments *)

Inductive SegmentType : Type := added | removed | unchanged.

Record DiffSegment : Type := Segment { text : jsstring; type : SegmentType }.

#[global] Instance SegmentType_eq_dec : EqDecision SegmentType.
Proof. solve_decision. Defined.

#[global] Instance DiffSegment_eq_dec : EqDecision DiffSegment.
Proof. solve_decision. Defined.

(** ** [computeDiff] *)

(** The variables of the loop: the two cursors and the array [result]. *)
Record cursor : Type := Cursor { ci : nat; cj : nat; result : list DiffSegment }.

(** [result.push({ text: t, type: ty })] guarded by [t !== undefined];
    [None] stands for the [undefined] an index out of range reads. *)
Definition push (ty : SegmentType) (t : option jsstring) (res : list DiffSegment)
  : list DiffSegment :=
  match t with
  | Some t => res ++ [Segment t ty]
  | None => res
  end.

(** [for (let l = from; l < to; l++) { push xs[l] with type ty }] *)
Definition pushRange (ty : SegmentType) (xs : list jsstring) (from to : nat)
    (res : list DiffSegment) : list DiffSegment :=
  foldl (fun acc l => push ty (xs !! l) acc) res (seq from (to - from)).

(** The search of the lookahead loops,
    [for (let k = cur + 1; k < xs.length && k < cur + 5; k++)],
    which is left by [break] at the first [k] whose entry [candidate] is
    [target]; the result is that [k] with its [candidate].  [scanFrom] is
    the loop from a given [k] on with bound [lim]; [fuel] counts the
    iterations still allowed, and [lim - k] of them are enough
    ([scanFrom_fuel]). *)
Fixpoint scanFrom (xs : list jsstring) (target : jsstring) (lim k fuel : nat)
  : option (nat * jsstring) :=
  match fuel with
  | 0 => None
  | S fuel' =>
      if decide (k < length xs ∧ k < lim) then
        match xs !! k with
        | Some candidate =>
            if decide (target = candidate) then Some (k, candidate)
            else scanFrom xs target lim (S k) fuel'
        | None => scanFrom xs target lim (S k) fuel'
        end
      else None
  end.

Definition lookahead (xs : list jsstring) (target : jsstring) (cur : nat)
  : option (nat * jsstring) :=
  scanFrom xs target (cur + 5) (cur + 1) 4.

(** One iteration of the [while] loop. *)
Definition body (left right : list jsstring) (st : cursor) : cursor :=
  let i := ci st in
  let j := cj st in
  let res := result st in
  if decide (length left ≤ i) then
    Cursor i (S j) (push added (right !! j) res)
  else if decide (length right ≤ j) then
    Cursor (S i) j (push removed (left !! i) res)
  else if decide (left !! i = right !! j) then
    Cursor (S i) (S j) (push unchanged (left !! i) res)
  else
    match left !! i, right !! j with
    | Some currentLeft, Some currentRight =>
        match lookahead right currentLeft j with
        | Some (k, _) =>
            Cursor (S i) (S k)
              (pushRange added right j k res ++ [Segment currentLeft unchanged])
        | None =>
            match lookahead left currentRight i with
            | Some (k, leftCandidate) =>
                Cursor (S k) (S j)
                  (pushRange removed left i k res ++
                   [Segment leftCandidate unchanged])
            | None =>
                Cursor (S i) (S j)
                  (res ++ [Segment currentLeft removed; Segment currentRight added])
            end
        end
    | _, _ => Cursor (S i) (S j) res
    end.

(** The loop condition [i < left.length || j < right.length]. *)
Definition continues (left right : list jsstring) (st : cursor) : bool :=
  bool_decide (ci st < length left) || bool_decide (cj st < length right).

(** The [while] loop, run for at most [fuel] iterations. *)
Fixpoint loop (fuel : nat) (left right : list jsstring) (st : cursor) : cursor :=
  match fuel with
  | 0 => st
  | S fuel' =>
      if continues left right st then loop fuel' left right (body left right st)
      else st
  end.

Definition start : cursor := Cursor 0 0 [].

(** Every iteration moves a cursor forward, so [left.length + right.length]
    iterations are enough for the loop to end ([loop_runs]). *)
Definition computeDiff (left right : list jsstring) : list DiffSegment :=
  result (loop (length left + length right) left right start).

(** The loop as a relation, with no bound on the iterations: [runs st st']
    when the loop entered at [st] is left at [st']. *)
Inductive runs (left right : list jsstring) : cursor → cursor → Prop :=
  | runs_exit st :
      continues left right st = false → runs left right st st
  | runs_iter st st' :
      continues left right st = true →
      runs left right (body left right st) st' →
      runs left right st st'.

(** ** [handleCompare] *)

(** The state of the component that [handleCompare] reads and writes. *)
Record page : Type := Page {
  leftText : jsstring;
  rightText : jsstring;
  diffResults : list DiffSegment;
  showResults : bool
}.

(** A string is falsy exactly when it is empty. *)
Definition falsy (s : jsstring) : bool := bool_decide (s = []).

Definition handleCompare (p : page) : page :=
  if falsy (trim (leftText p)) && falsy (trim (rightText p)) then
    Page (leftText p) (rightText p) [] false
  else
    let leftWords := split (leftText p) in
    let rightWords := split (rightText p) in
    let diff := computeDiff leftWords rightWords in
    Page (leftText p) (rightText p) diff true.


(** ** The vocabulary of the properties *)

(** The tokens a segment list shows on the original side (the segments that
    are unchanged or removed), on the modified side (unchanged or added),
    and on both (unchanged). *)
Definition originalOf (res : list DiffSegment) : list jsstring :=
  text <$> filter (λ s, type s = unchanged ∨ type s = removed) res.

Definition modifiedOf (res : list DiffSegment) : list jsstring :=
  text <$> filter (λ s, type s = unchanged ∨ type s = added) res.

Definition matchedOf (res : list DiffSegment) : list jsstring :=
  text <$> filter (λ s, type s = unchanged) res.

(** The entries of [xs] the lookahead from cursor [cur] may read:
    [xs[cur+1]] to [xs[cur+4]], as far as they exist. *)
Definition window (xs : list jsstring) (cur : nat) : list jsstring :=
  take 4 (drop (S cur) xs).

(** [k] is the first index of the window after [cur] that holds [t]. *)
Definition firstAt (xs : list jsstring) (t : jsstring) (cur k : nat) : Prop :=
  cur < k ≤ cur + 4 ∧ xs !! k = Some t ∧ ∀ m, cur < m < k → xs !! m ≠ Some t.

(** [xs[from..to)] as segments of one type. *)
Definition segments (ty : SegmentType) (xs : list jsstring) (from to : nat)
  : list DiffSegment :=
  (λ t, Segment t ty) <$> take (to - from) (drop from xs).

(** Pairs of positions, one in each input, that hold the given tokens, and
    pairs that increase strictly in both components. *)
Definition matching (left right : list jsstring) (ms : list (nat * nat))
    (ts : list jsstring) : Prop :=
  Forall2 (λ m t, left !! m.1 = Some t ∧ right !! m.2 = Some t) ms ts.

Definition ascending (ms : list (nat * nat)) : Prop :=
  ∀ a b m n, a < b → ms !! a = Some m → ms !! b = Some n → m.1 < n.1 ∧ m.2 < n.2.

(** [t], standing between [before] and [after], is a run of code units of
    the class [P] that cannot be extended on either side. *)
Definition maximal_run (P : char16 → bool) (before t after : jsstring) : Prop :=
  Forall (λ c, P c = true) t ∧
  (∀ c, last before = Some c → P c = false) ∧
  (∀ c, head after = Some c → P c = false).

(** Every token of [s] is a maximal run of white space or of other code
    units, and is not empty. *)
Definition token_shape (s : jsstring) : Prop :=
  ∀ pre t post, split s = pre ++ t :: post →
    t ≠ [] ∧
    (maximal_run is_ws (concat pre) t (concat post) ∨
     maximal_run non_ws (concat pre) t (concat post)).

(** The rules of the aligner as the specification words them, as a
    relation between the cursor before and after one iteration: left
    exhausted (1), right exhausted (2), exact match (3), resync on the right
    (4a), resync on the left (4b), replacement (4c). *)
Inductive rule (left right : list jsstring) : cursor → cursor → Prop :=
  | rule_left_exhausted i j res t :
      length left ≤ i → right !! j = Some t →
      rule left right (Cursor i j res) (Cursor i (S j) (res ++ [Segment t added]))
  | rule_right_exhausted i j res t :
      length right ≤ j → left !! i = Some t →
      rule left right (Cursor i j res) (Cursor (S i) j (res ++ [Segment t removed]))
  | rule_match i j res t :
      left !! i = Some t → right !! j = Some t →
      rule left right (Cursor i j res)
        (Cursor (S i) (S j) (res ++ [Segment t unchanged]))
  | rule_insert i j res curL curR k :
      left !! i = Some curL → right !! j = Some curR → curL ≠ curR →
      firstAt right curL j k →
      rule left right (Cursor i j res)
        (Cursor (S i) (S k)
           (res ++ segments added right j k ++ [Segment curL unchanged]))
  | rule_delete i j res curL curR k :
      left !! i = Some curL → right !! j = Some curR → curL ≠ curR →
      curL ∉ window right j → firstAt left curR i k →
      rule left right (Cursor i j res)
        (Cursor (S k) (S j)
           (res ++ segments removed left i k ++ [Segment curR unchanged]))
  | rule_replace i j res curL curR :
      left !! i = Some curL → right !! j = Some curR → curL ≠ curR →
      curL ∉ window right j → curR ∉ window left i →
      rule left right (Cursor i j res)
        (Cursor (S i) (S j)
           (res ++ [Segment curL removed; Segment curR added])).

(** The entries the cursors still have to pass. *)
Definition remaining (left right : list jsstring) (st : cursor) : nat :=
  (length left - ci st) + (length right - cj st).

(** The loop invariant: the segments pushed so far show, on the original
    side, the part of [left] before cursor [i] and, on the modified side,
    the part of [right] before cursor [j]; each unchanged segment stands
    for a pair of positions that the cursors have passed. *)
Record aligned (left right : list jsstring) (st : cursor) : Prop := Aligned {
  al_i : ci st ≤ length left;
  al_j : cj st ≤ length right;
  al_original : originalOf (result st) = take (ci st) left;
  al_modified : modifiedOf (result st) = take (cj st) right;
  al_matched : ∃ ms,
    matching left right ms (matchedOf (result st)) ∧ ascending ms ∧
    Forall (λ m, m.1 < ci st ∧ m.2 < cj st) ms
}.

(** ** The other handlers of the page *)

(** The state [useState] sets up at the first render. *)
Definition initial : page := Page [] [] [] false.

(** [handleLeftTextChange] and [handleRightTextChange], at the value
    [e.target.value] of the text area. *)
Definition handleLeftTextChange (value : jsstring) (p : page) : page :=
  Page value (rightText p) (diffResults p) (showResults p).

Definition handleRightTextChange (value : jsstring) (p : page) : page :=
  Page (leftText p) value (diffResults p) (showResults p).

Definition handleClear (p : page) : page := Page [] [] [] false.

(** The fields of the keyboard event that [handleKeyDown] reads. *)
Record KeyboardEvent : Type := KeyDown {
  key : jsstring;
  ctrlKey : bool;
  metaKey : bool
}.

(** [handleKeyDown]: the new state, and whether [e.preventDefault()] was
    called. *)
Definition handleKeyDown (e : KeyboardEvent) (p : page) : page * bool :=
  if bool_decide (key e = js "Enter") && (ctrlKey e || metaKey e) then
    (handleCompare p, true)
  else (p, false).

(** What a user does to the page: typing into a text area ([onChange]), a
    key pressed in a text area ([onKeyDown]), and the buttons Compare Texts
    and Clear All ([onClick]).  The scroll handlers write to the text areas
    only, not to this state, and are left out. *)
Inductive action : Type :=
  | ChangeLeft (value : jsstring)
  | ChangeRight (value : jsstring)
  | PressKey (e : KeyboardEvent)
  | ClickCompare
  | ClickClear.

Definition perform (p : page) (a : action) : page :=
  match a with
  | ChangeLeft value => handleLeftTextChange value p
  | ChangeRight value => handleRightTextChange value p
  | PressKey e => (handleKeyDown e p).1
  | ClickCompare => handleCompare p
  | ClickClear => handleClear p
  end.

(** The state after a sequence of actions on the fresh page. *)
Definition after (actions : list action) : page := foldl perform initial actions.

(** The results region of the page: nothing while [showResults] is false;
    else the paragraph [No differences found.] when [diffResults] is empty,
    and one [span] per segment otherwise, with its [key], [className],
    [title] and text. *)
Record span : Type := Span {
  spanKey : nat;
  className : string;
  title : string;
  children : jsstring
}.

Inductive region : Type :=
  | NoDifferences
  | Spans (spans : list span).

Definition renderSegment (index : nat) (segment : DiffSegment) : span :=
  Span index
    (match type segment with
     | added => "bg-green-500/20 text-green-300 border-l-2 border-green-500 pl-1"
     | removed =>
         "bg-red-500/20 text-red-300 border-l-2 border-red-500 pl-1 line-through"
     | unchanged => "text-slate-300"
     end)
    (match type segment with
     | added => "Added text"
     | removed => "Removed text"
     | unchanged => "Unchanged text"
     end)
    (text segment).

Definition renderResults (p : page) : option region :=
  if showResults p then
    Some (if decide (length (diffResults p) = 0) then NoDifferences
          else Spans (imap renderSegment (diffResults p)))
  else None.

(** ** The vocabulary of the further properties *)

(** A cursor of the loop on [l] and [r], seen on the longer arrays
    [p ++ l] and [q ++ r] after the segments [pre] were pushed. *)
Definition shift (p q : list jsstring) (pre : list DiffSegment) (st : cursor)
  : cursor :=
  Cursor (length p + ci st) (length q + cj st) (pre ++ result st).

(** * Properties *)

(** An entry read at an index puts that index below the length. *)
Ltac lookup_bounds :=
  repeat match goal with
  | H : _ !! _ = Some _ |- _ => apply lookup_lt_Some in H
  end.

(** ** The lookahead *)

Section Lookahead.
Variables (xs : list jsstring) (target : jsstring).

Lemma scanFrom_Some lim k fuel k' c :
  scanFrom xs target lim k fuel = Some (k', c) →
  c = target ∧ k ≤ k' ∧ k' < lim ∧ k' < k + fuel ∧ xs !! k' = Some target ∧
  ∀ m, k ≤ m < k' → xs !! m ≠ Some target.
Proof.
  revert k. induction fuel as [|fuel IH]; intros k; simpl; [done|].
  case_decide as Hk; [|done].
  destruct (xs !! k) as [cand|] eqn:Hc.
  - case_decide as Ht.
    + intros [= <- <-]. subst cand.
      split_and!; [done|lia..|done|intros m ?; lia].
    + intros (-> & ? & ? & ? & ? & Hm)%IH.
      split_and!; [done|lia..|done|].
      intros m ?. destruct (decide (m = k)) as [->|]; [congruence|].
      apply Hm; lia.
  - apply lookup_ge_None in Hc. lia.
Qed.

Lemma scanFrom_None lim k fuel m :
  scanFrom xs target lim k fuel = None →
  k ≤ m → m < lim → m < k + fuel → xs !! m ≠ Some target.
Proof.
  revert k. induction fuel as [|fuel IH]; intros k; simpl; [lia|].
  case_decide as Hk.
  - destruct (xs !! k) as [cand|] eqn:Hc.
    + case_decide as Ht; [done|]. intros Hn ? ? ?.
      destruct (decide (m = k)) as [->|]; [congruence|].
      apply (IH (S k)); [done|lia..].
    + apply lookup_ge_None in Hc. lia.
  - intros _ ? ? ? ?%lookup_lt_Some. lia.
Qed.

(** The bound [lim] ends the loop by itself: iterations beyond [lim - k]
    are never run. *)
Lemma scanFrom_fuel lim k fuel :
  lim - k ≤ fuel → scanFrom xs target lim k fuel = scanFrom xs target lim k (lim - k).
Proof.
  revert k. induction fuel as [|fuel IH]; intros k Hf.
  - by replace (lim - k) with 0 by lia.
  - destruct (decide (k < lim)) as [Hk|Hk].
    + replace (lim - k) with (S (lim - S k)) by lia. simpl.
      rewrite (IH (S k)) by lia. done.
    + replace (lim - k) with 0 by lia. simpl.
      case_decide; [lia|done].
Qed.

Lemma window_elem_of cur :
  target ∈ window xs cur ↔ ∃ m, cur < m ≤ cur + 4 ∧ xs !! m = Some target.
Proof.
  unfold window. rewrite elem_of_take. split.
  - intros (n & Hn & ?). rewrite lookup_drop in Hn.
    exists (S cur + n). split; [lia|done].
  - intros (m & ? & Hm). exists (m - S cur). rewrite lookup_drop.
    replace (S cur + (m - S cur)) with m by lia. split; [done|lia].
Qed.

Lemma lookahead_Some cur k c :
  lookahead xs target cur = Some (k, c) → c = target ∧ firstAt xs target cur k.
Proof.
  intros (-> & ? & ? & ? & ? & Hm)%scanFrom_Some.
  split; [done|]. split_and!; [lia..|done|].
  intros m ?. apply Hm. lia.
Qed.

Lemma lookahead_None cur :
  lookahead xs target cur = None ↔ target ∉ window xs cur.
Proof.
  rewrite window_elem_of. split.
  - intros Hn (m & ? & Hm). revert Hm.
    apply (scanFrom_None _ _ _ _ Hn); lia.
  - intros Hw. destruct (lookahead xs target cur) as [[k c]|] eqn:Hl; [|done].
    apply lookahead_Some in Hl as (_ & ? & ? & _). destruct Hw; eauto.
Qed.

Lemma firstAt_unique cur k k' :
  firstAt xs target cur k → firstAt xs target cur k' → k = k'.
Proof.
  intros (? & Hk & Hmin) (? & Hk' & Hmin').
  destruct (decide (k < k')); [destruct (Hmin' k); [lia|done]|].
  destruct (decide (k' < k)); [destruct (Hmin k'); [lia|done]|]. lia.
Qed.

Lemma lookahead_firstAt cur k :
  firstAt xs target cur k → lookahead xs target cur = Some (k, target).
Proof.
  intros Hk. destruct (lookahead xs target cur) as [[k' c]|] eqn:Hl.
  - apply lookahead_Some in Hl as [-> Hk'].
    by rewrite (firstAt_unique _ _ _ Hk Hk').
  - apply lookahead_None in Hl. destruct Hl. apply window_elem_of.
    destruct Hk as (? & ? & _). eauto.
Qed.

Lemma firstAt_lt_length cur k : firstAt xs target cur k → k < length xs.
Proof. intros (_ & ?%lookup_lt_Some & _). done. Qed.
End Lookahead.

(** The scan never reads an entry at [cur + 5] or beyond: cutting the
    array there leaves its result as it is. *)
Lemma scanFrom_take xs target lim k fuel :
  scanFrom (take lim xs) target lim k fuel = scanFrom xs target lim k fuel.
Proof.
  revert k. induction fuel as [|fuel IH]; intros k; simpl; [done|].
  rewrite length_take. destruct (decide (k < lim)) as [Hk|Hk].
  - rewrite lookup_take_lt by done. rewrite !IH.
    repeat case_decide; try done; lia.
  - repeat case_decide; try done; lia.
Qed.

Lemma lookahead_take xs target cur :
  lookahead (take (cur + 5) xs) target cur = lookahead xs target cur.
Proof. apply scanFrom_take. Qed.

(** ** Pushing a range *)

Lemma pushRange_segments ty xs from to res :
  from ≤ to → to ≤ length xs →
  pushRange ty xs from to res = res ++ segments ty xs from to.
Proof.
  unfold pushRange, segments. intros Hft Hto.
  remember (to - from) as n eqn:Hn. revert res to Hft Hto Hn.
  induction n as [|n IH]; intros res to Hft Hto Hn.
  - simpl. by rewrite app_nil_r.
  - rewrite seq_S, foldl_app. simpl.
    rewrite (IH res (from + n)) by lia.
    destruct (lookup_lt_is_Some_2 xs (from + n)) as [x Hx]; [lia|].
    rewrite Hx. simpl. rewrite <-app_assoc. f_equal.
    rewrite (take_S_r _ _ x) by (by rewrite lookup_drop).
    by rewrite fmap_app.
Qed.

(** ** One iteration *)

Section Body.
Variables left right : list jsstring.

Lemma continues_true st :
  continues left right st = true ↔ ci st < length left ∨ cj st < length right.
Proof.
  unfold continues. rewrite orb_true_iff, !bool_decide_eq_true. done.
Qed.

Lemma continues_false st :
  continues left right st = false ↔ length left ≤ ci st ∧ length right ≤ cj st.
Proof.
  unfold continues. rewrite orb_false_iff, !bool_decide_eq_false. lia.
Qed.

(** The loop body applies the rules: whenever the loop condition holds,
    the iteration is an instance of one of them. *)
Lemma body_rule st :
  continues left right st = true → rule left right st (body left right st).
Proof.
  destruct st as [i j res]. rewrite continues_true. simpl. intros Hc.
  unfold body. simpl. case_decide as Hi.
  { destruct (lookup_lt_is_Some_2 right j) as [t Ht]; [lia|].
    rewrite Ht. by constructor. }
  case_decide as Hj.
  { destruct (lookup_lt_is_Some_2 left i) as [t Ht]; [lia|].
    rewrite Ht. by constructor. }
  destruct (lookup_lt_is_Some_2 left i) as [cl Hl]; [lia|].
  destruct (lookup_lt_is_Some_2 right j) as [cr Hr]; [lia|].
  rewrite Hl, Hr. case_decide as Heq.
  { simplify_eq. by constructor. }
  assert (cl ≠ cr) by congruence.
  destruct (lookahead right cl j) as [[k c]|] eqn:Ha.
  { apply lookahead_Some in Ha as [-> Hk].
    rewrite pushRange_segments, <-app_assoc;
      [|destruct Hk; lia|by eapply Nat.lt_le_incl, firstAt_lt_length].
    by eapply rule_insert. }
  apply lookahead_None in Ha.
  destruct (lookahead left cr i) as [[k c]|] eqn:Hb.
  { apply lookahead_Some in Hb as [-> Hk].
    rewrite pushRange_segments, <-app_assoc;
      [|destruct Hk; lia|by eapply Nat.lt_le_incl, firstAt_lt_length].
    by eapply rule_delete. }
  apply lookahead_None in Hb. by eapply rule_replace.
Qed.
End Body.

(** ** The rules as equations of the loop body *)

Section Rules.
Variables left right : list jsstring.

Lemma firstAt_window xs t cur k : firstAt xs t cur k → t ∈ window xs cur.
Proof. intros (? & ? & _). apply window_elem_of. eauto. Qed.

(** At most one rule applies, and it leaves one cursor. *)
Lemma rule_functional st st1 st2 :
  rule left right st st1 → rule left right st st2 → st1 = st2.
Proof.
  intros H1 H2. destruct H1; inversion H2; simplify_eq; try done;
    lookup_bounds; try lia;
    try match goal with
    | H : firstAt ?xs ?t ?c _, H' : ?t ∉ window ?xs ?c |- _ =>
        destruct H'; by eapply firstAt_window
    end.
  - match goal with
    | H : firstAt ?xs ?t ?c ?k, H' : firstAt ?xs ?t ?c ?k' |- _ =>
        by rewrite (firstAt_unique _ _ _ _ _ H H')
    end.
  - match goal with
    | H : firstAt ?xs ?t ?c ?k, H' : firstAt ?xs ?t ?c ?k' |- _ =>
        by rewrite (firstAt_unique _ _ _ _ _ H H')
    end.
Qed.

Lemma rule_continues st st' :
  rule left right st st' → continues left right st = true.
Proof.
  intros H. apply continues_true.
  destruct H; simpl; lookup_bounds; lia.
Qed.

(** The loop body is the function the rules describe. *)
Lemma rule_body st st' : rule left right st st' → body left right st = st'.
Proof.
  intros H. eapply rule_functional; [|done].
  by eapply body_rule, rule_continues.
Qed.
End Rules.

(** ** The sides of a segment list *)

Lemma originalOf_app res res' :
  originalOf (res ++ res') = originalOf res ++ originalOf res'.
Proof. unfold originalOf. by rewrite filter_app, fmap_app. Qed.

Lemma modifiedOf_app res res' :
  modifiedOf (res ++ res') = modifiedOf res ++ modifiedOf res'.
Proof. unfold modifiedOf. by rewrite filter_app, fmap_app. Qed.

Lemma matchedOf_app res res' :
  matchedOf (res ++ res') = matchedOf res ++ matchedOf res'.
Proof. unfold matchedOf. by rewrite filter_app, fmap_app. Qed.

Lemma originalOf_segments ty xs from to :
  originalOf (segments ty xs from to) =
  if decide (ty = added) then [] else take (to - from) (drop from xs).
Proof.
  unfold originalOf, segments.
  induction (take (to - from) (drop from xs)) as [|t ts IH];
    [by case_decide|].
  rewrite fmap_cons, filter_cons. simpl.
  destruct ty; repeat case_decide; rewrite ?fmap_cons, ?IH;
    solve [done | intuition discriminate].
Qed.

Lemma modifiedOf_segments ty xs from to :
  modifiedOf (segments ty xs from to) =
  if decide (ty = removed) then [] else take (to - from) (drop from xs).
Proof.
  unfold modifiedOf, segments.
  induction (take (to - from) (drop from xs)) as [|t ts IH];
    [by case_decide|].
  rewrite fmap_cons, filter_cons. simpl.
  destruct ty; repeat case_decide; rewrite ?fmap_cons, ?IH;
    solve [done | intuition discriminate].
Qed.

Lemma matchedOf_segments ty xs from to :
  ty ≠ unchanged → matchedOf (segments ty xs from to) = [].
Proof.
  unfold matchedOf, segments. intros Hty.
  induction (take (to - from) (drop from xs)) as [|t ts IH]; simpl; [done|].
  rewrite filter_cons. simpl. by case_decide.
Qed.

(** Every segment shows on a side, and on both when it is unchanged. *)
Lemma sides_length res :
  length res + length (matchedOf res) =
  length (originalOf res) + length (modifiedOf res).
Proof.
  unfold matchedOf, originalOf, modifiedOf. rewrite !length_fmap.
  induction res as [|[t []] res IH]; [done|..];
    rewrite !filter_cons; simpl; repeat case_decide; simpl;
    first [lia | naive_solver].
Qed.

Lemma matchedOf_length_le res :
  length (matchedOf res) ≤ length (originalOf res) ∧
  length (matchedOf res) ≤ length (modifiedOf res).
Proof.
  unfold matchedOf, originalOf, modifiedOf. rewrite !length_fmap.
  induction res as [|[t []] res IH]; [done|..];
    rewrite !filter_cons; simpl; repeat case_decide; simpl;
    first [lia | naive_solver].
Qed.

Lemma take_drop_one {A} (xs : list A) a t :
  xs !! a = Some t → take (S a - a) (drop a xs) = [t].
Proof.
  intros Ha. replace (S a - a) with 1 by lia.
  rewrite (take_S_r _ 0 t); [done|]. rewrite lookup_drop.
  by replace (a + 0) with a by lia.
Qed.

Lemma take_drop_snoc {A} (xs : list A) a b t :
  a ≤ b → xs !! b = Some t →
  take (S b - a) (drop a xs) = take (b - a) (drop a xs) ++ [t].
Proof.
  intros Hab Hb. replace (S b - a) with (S (b - a)) by lia.
  apply take_S_r. rewrite lookup_drop. by replace (a + (b - a)) with b by lia.
Qed.

(** ** The loop *)

Section Loop.
Variables left right : list jsstring.

(** What an iteration adds: the cursors move forward, at least one of
    them, and the new segments show the entries the cursors passed.  At
    most one of them is unchanged, and it stands for a pair of passed
    positions holding the same token. *)
Lemma rule_advance st st' :
  rule left right st st' → ci st ≤ length left → cj st ≤ length right →
  ∃ delta,
    result st' = result st ++ delta ∧
    ci st ≤ ci st' ≤ length left ∧ cj st ≤ cj st' ≤ length right ∧
    originalOf delta = take (ci st' - ci st) (drop (ci st) left) ∧
    modifiedOf delta = take (cj st' - cj st) (drop (cj st) right) ∧
    (matchedOf delta = [] ∨
     ∃ p q t, matchedOf delta = [t] ∧
       ci st ≤ p < ci st' ∧ cj st ≤ q < cj st' ∧
       left !! p = Some t ∧ right !! q = Some t).
Proof.
  intros Hr Hi Hj.
  destruct Hr as [i j res t ? Ht|i j res t ? Ht|i j res t Hl Hr
                 |i j res cl cr k Hl Hr ? Hk|i j res cl cr k Hl Hr ? ? Hk
                 |i j res cl cr Hl Hr ? ? ?]; simpl in *; eexists; (split; [done|]).
  - pose proof (lookup_lt_Some _ _ _ Ht).
    rewrite Nat.sub_diag, (take_drop_one _ _ _ Ht). split_and!; try done; try lia.
    by left.
  - pose proof (lookup_lt_Some _ _ _ Ht).
    rewrite Nat.sub_diag, (take_drop_one _ _ _ Ht). split_and!; try done; try lia.
    by left.
  - pose proof (lookup_lt_Some _ _ _ Hl). pose proof (lookup_lt_Some _ _ _ Hr).
    rewrite (take_drop_one _ _ _ Hl), (take_drop_one _ _ _ Hr).
    split_and!; try done; try lia.
    right. exists i, j, t. split_and!; try done; lia.
  - pose proof (lookup_lt_Some _ _ _ Hl).
    pose proof (firstAt_lt_length _ _ _ _ Hk). destruct Hk as (? & Hk & _).
    rewrite originalOf_app, modifiedOf_app, matchedOf_app.
    rewrite originalOf_segments, modifiedOf_segments, matchedOf_segments by done.
    rewrite (take_drop_one _ _ _ Hl), (take_drop_snoc _ j k cl) by (done || lia).
    split_and!; try done; try lia.
    right. exists i, k, cl. split_and!; try done; lia.
  - pose proof (lookup_lt_Some _ _ _ Hr).
    pose proof (firstAt_lt_length _ _ _ _ Hk). destruct Hk as (? & Hk & _).
    rewrite originalOf_app, modifiedOf_app, matchedOf_app.
    rewrite originalOf_segments, modifiedOf_segments, matchedOf_segments by done.
    rewrite (take_drop_one _ _ _ Hr), (take_drop_snoc _ i k cr) by (done || lia).
    split_and!; try done; try lia.
    right. exists k, j, cr. split_and!; try done; lia.
  - pose proof (lookup_lt_Some _ _ _ Hl). pose proof (lookup_lt_Some _ _ _ Hr).
    rewrite (take_drop_one _ _ _ Hl), (take_drop_one _ _ _ Hr).
    split_and!; try done; try lia.
    by left.
Qed.

(** Every iteration moves cursor [i], cursor [j] or both forward, and
    none back. *)
Lemma rule_forward st st' :
  rule left right st st' →
  ci st ≤ ci st' ∧ cj st ≤ cj st' ∧ ci st + cj st < ci st' + cj st'.
Proof.
  intros [| | |? ? ? ? ? ? ? ? ? (? & _)|? ? ? ? ? ? ? ? ? ? (? & _)|]; simpl; lia.
Qed.

Lemma rule_remaining st st' :
  rule left right st st' → remaining left right st' < remaining left right st.
Proof.
  unfold remaining.
  intros [? ? ? ? ? Ht|? ? ? ? ? Ht|? ? ? ? Hl Hr|? ? ? ? ? ? Hl Hr ? (? & _)
         |? ? ? ? ? ? Hl Hr ? ? (? & _)|? ? ? ? ? Hl Hr]; simpl;
    lookup_bounds; lia.
Qed.

Lemma ascending_snoc ms m i j :
  ascending ms → Forall (λ m', m'.1 < i ∧ m'.2 < j) ms →
  i ≤ m.1 → j ≤ m.2 → ascending (ms ++ [m]).
Proof.
  intros Hasc Hall ? ? a b m1 m2 Hab Ha Hb.
  apply lookup_app_Some in Hb as [Hb|[? Hb]].
  - rewrite lookup_app_l in Ha by (apply lookup_lt_Some in Hb; lia). eauto.
  - apply list_lookup_singleton_Some in Hb as [? <-].
    rewrite lookup_app_l in Ha by lia.
    rewrite Forall_lookup in Hall. destruct (Hall _ _ Ha). lia.
Qed.

Lemma rule_aligned st st' :
  rule left right st st' → aligned left right st → aligned left right st'.
Proof.
  intros Hr [Hi Hj Ho Hm (ms & Hms & Hasc & Hlt)].
  destruct (rule_advance _ _ Hr Hi Hj)
    as (delta & Hres & ? & ? & Hdo & Hdm & Hmatch).
  split; [lia|lia|..].
  - rewrite Hres, originalOf_app, Ho, Hdo, take_take_drop. f_equal. lia.
  - rewrite Hres, modifiedOf_app, Hm, Hdm, take_take_drop. f_equal. lia.
  - rewrite Hres, matchedOf_app.
    destruct Hmatch as [->|(p & q & t & -> & ? & ? & ? & ?)].
    + exists ms. rewrite app_nil_r. split_and!; [done..|].
      eapply Forall_impl; [done|]. simpl. lia.
    + exists (ms ++ [(p, q)]). split_and!.
      * apply Forall2_app; [done|]. by repeat constructor.
      * eapply ascending_snoc; [done..| |]; simpl; lia.
      * apply Forall_app. split; [|repeat constructor; simpl; lia].
        eapply Forall_impl; [done|]. simpl. lia.
Qed.

Lemma start_aligned : aligned left right start.
Proof.
  split; simpl; try lia; try done.
  exists []. split_and!; [constructor| |constructor].
  intros a b m n _ Ha. by rewrite lookup_nil in Ha.
Qed.

(** The loop is left after at most [remaining] iterations. *)
Lemma loop_runs fuel st :
  remaining left right st ≤ fuel →
  runs left right st (loop fuel left right st).
Proof.
  revert st. induction fuel as [|fuel IH]; intros st Hf; simpl.
  - apply runs_exit, continues_false. unfold remaining in Hf. lia.
  - destruct (continues left right st) eqn:Hc; [|by apply runs_exit].
    apply runs_iter; [done|]. apply IH.
    pose proof (rule_remaining _ _ (body_rule _ _ _ Hc)). lia.
Qed.

Lemma runs_functional st st1 st2 :
  runs left right st st1 → runs left right st st2 → st1 = st2.
Proof.
  intros H1. revert st2. induction H1 as [st Hc|st st' Hc _ IH]; intros st2 H2.
  - destruct H2 as [|? ? Hc']; [done|congruence].
  - destruct H2 as [? Hc'|]; [congruence|by apply IH].
Qed.

Lemma runs_aligned st st' :
  runs left right st st' → aligned left right st →
  aligned left right st' ∧ ci st' = length left ∧ cj st' = length right.
Proof.
  induction 1 as [st Hc|st st' Hc _ IH]; intros Hal.
  - apply continues_false in Hc. destruct Hal. split; [by split|lia].
  - apply IH. eapply rule_aligned; [by apply body_rule|done].
Qed.

(** More fuel than the entries that remain changes nothing. *)
Lemma loop_fuel fuel st :
  remaining left right st ≤ fuel →
  loop fuel left right st = loop (remaining left right st) left right st.
Proof.
  intros Hf. eapply runs_functional; by apply loop_runs.
Qed.

Lemma computeDiff_runs :
  ∃ st, runs left right start st ∧ result st = computeDiff left right.
Proof.
  eexists. split; [|done]. apply loop_runs. unfold remaining. simpl. lia.
Qed.

Lemma computeDiff_aligned :
  ∃ st, result st = computeDiff left right ∧ aligned left right st ∧
        ci st = length left ∧ cj st = length right.
Proof.
  destruct computeDiff_runs as (st & Hruns & Hres).
  exists st. split; [done|]. eapply runs_aligned; [done|apply start_aligned].
Qed.

Lemma computeDiff_original : originalOf (computeDiff left right) = left.
Proof.
  destruct computeDiff_aligned as (st & <- & Hal & Hi & _).
  rewrite (al_original _ _ _ Hal), Hi. by apply take_ge.
Qed.

Lemma computeDiff_modified : modifiedOf (computeDiff left right) = right.
Proof.
  destruct computeDiff_aligned as (st & <- & Hal & _ & Hj).
  rewrite (al_modified _ _ _ Hal), Hj. by apply take_ge.
Qed.
End Loop.

(** ** [trim] and [split] *)

Lemma trimStart_nil s : trimStart s = [] ↔ Forall (λ c, is_ws c = true) s.
Proof.
  induction s as [|c s IH]; simpl; [by split|].
  destruct (is_ws c) eqn:Hc.
  - rewrite IH. split; [by constructor|by inversion 1].
  - split; [done|]. inversion 1; congruence.
Qed.

Lemma trimStart_Forall s :
  Forall (λ c, is_ws c = true) (trimStart s) → Forall (λ c, is_ws c = true) s.
Proof.
  induction s as [|c s IH]; simpl; [done|].
  destruct (is_ws c) eqn:Hc; [|done]. intros. constructor; auto.
Qed.

(** A string trims to the empty string exactly when it is empty or holds
    white space only. *)
Lemma trim_nil s : trim s = [] ↔ Forall (λ c, is_ws c = true) s.
Proof.
  unfold trim, trimEnd. split.
  - intros H. apply (f_equal reverse) in H. rewrite reverse_involutive in H.
    change (reverse []) with (@nil char16) in H.
    apply trimStart_nil in H. rewrite Forall_reverse in H.
    by apply trimStart_Forall.
  - intros H. apply trimStart_nil in H. rewrite H. done.
Qed.

Lemma split_concat s :
  (∀ word, concat (split_word word s) = word ++ s) ∧
  (∀ run, concat (split_sep run s) = run ++ s).
Proof.
  induction s as [|c s [IHw IHs]]; simpl.
  - split; intros; by rewrite ?app_nil_r.
  - split; intros; destruct (is_ws c); simpl;
      rewrite ?IHw, ?IHs, <-?app_assoc; done.
Qed.

Lemma split_length s :
  (∀ word, 0 < length (split_word word s)) ∧
  (∀ run, 0 < length (split_sep run s)).
Proof.
  induction s as [|c s [IHw IHs]]; simpl.
  - split; intros; simpl; lia.
  - split; intros; destruct (is_ws c); simpl; auto with lia.
Qed.
Lemma last_app_run {A} (P : A → Prop) (before run : list A) c :
  Forall P run → run ≠ [] → last (before ++ run) = Some c → P c.
Proof.
  intros Hr Hne. rewrite last_app.
  destruct (last run) as [c'|] eqn:Hl; [|by apply last_None in Hl].
  intros [= <-]. apply last_Some_elem_of in Hl.
  rewrite Forall_forall in Hr. auto.
Qed.

Lemma non_ws_false c : non_ws c = false ↔ is_ws c = true.
Proof. unfold non_ws. by destruct (is_ws c). Qed.

Lemma non_ws_true c : non_ws c = true ↔ is_ws c = false.
Proof. unfold non_ws. by destruct (is_ws c). Qed.

Lemma split_runs s :
  (∀ before word pre t post,
     Forall (λ c, non_ws c = true) word →
     (∀ c, last before = Some c → non_ws c = false) →
     (word = [] → before = []) →
     split_word word s = pre ++ t :: post →
     if Nat.even (length pre)
     then maximal_run non_ws (before ++ concat pre) t (concat post) ∧
          (t = [] → pre = [] ∧ word = [] ∨ post = [])
     else maximal_run is_ws (before ++ concat pre) t (concat post) ∧ t ≠ []) ∧
  (∀ before run pre t post,
     Forall (λ c, is_ws c = true) run → run ≠ [] →
     (∀ c, last before = Some c → is_ws c = false) →
     split_sep run s = pre ++ t :: post →
     if Nat.odd (length pre)
     then maximal_run non_ws (before ++ concat pre) t (concat post) ∧
          (t = [] → post = [])
     else maximal_run is_ws (before ++ concat pre) t (concat post) ∧ t ≠ []).
Proof.
  induction s as [|c s [IHw IHs]]; simpl.
  - split.
    + intros before word [|? [|? ?]] t post Hw Hb Hnil [= ]; simplify_eq/=.
      rewrite app_nil_r. split; [by split_and!|auto].
    + intros before run [|? [|? [|? ?]]] t post Hr Hne Hb [= ]; simplify_eq/=.
      * rewrite app_nil_r. split; [by split_and!|done].
      * rewrite !app_nil_r. split; [|done]. split_and!; [done| |done].
        intros c ?. apply non_ws_false.
        by eapply (last_app_run (λ c, is_ws c = true)).
  - split.
    + intros before word pre t post Hw Hb Hnil. destruct (is_ws c) eqn:Hc.
      * destruct pre as [|p pre]; intros Heq; injection Heq as ? Heq; subst.
        -- simpl. rewrite app_nil_r. split; [|auto]. split_and!; [done..|].
           rewrite (proj2 (split_concat s)). simpl. intros ? [= <-].
           by apply non_ws_false.
        -- rewrite length_cons, Nat.even_succ, concat_cons, app_assoc.
           eapply (IHs (before ++ p)) in Heq.
           ++ destruct (Nat.odd (length pre)); [|done].
              destruct Heq as [? ?]. split; [done|auto].
           ++ by repeat constructor.
           ++ done.
           ++ intros c' Hl. destruct (decide (p = [])) as [->|Hp].
              ** rewrite Hnil in Hl by done. done.
              ** apply non_ws_true.
                 by eapply (last_app_run (λ c, non_ws c = true)).
      * intros H. eapply (IHw before) in H.
        -- destruct (Nat.even (length pre)); [|done].
           destruct H as [? Ht]. split; [done|]. intros Hte.
           destruct (Ht Hte) as [[_ Hw']|?]; [by destruct word|by right].
        -- apply Forall_app. split; [done|]. repeat constructor. by apply non_ws_true.
        -- done.
        -- by intros [? ?]%app_eq_nil.
    + intros before run pre t post Hr Hne Hb. destruct (is_ws c) eqn:Hc.
      * intros H. eapply (IHs before) in H; [done|..|done].
        -- apply Forall_app. split; [done|]. by repeat constructor.
        -- by intros [? ?]%app_eq_nil.
      * destruct pre as [|p pre]; intros Heq; injection Heq as ? Heq; subst.
        -- simpl. rewrite app_nil_r. split; [|done]. split_and!; [done..|].
           rewrite (proj1 (split_concat s)). simpl. by intros ? [= <-].
        -- rewrite length_cons, Nat.odd_succ, concat_cons, app_assoc.
           eapply (IHw (before ++ p)) in Heq.
           ++ destruct (Nat.even (length pre)); [|done].
              destruct Heq as [? Ht]. split; [done|]. intros [[? ?]|]%Ht; done.
           ++ repeat constructor. by apply non_ws_true.
           ++ intros c' Hl. apply non_ws_false.
              by eapply (last_app_run (λ c, is_ws c = true)).
           ++ done.
Qed.


(** ** Equal inputs *)

Lemma runs_same xs n i res :
  n = length xs - i → i ≤ length xs →
  runs xs xs (Cursor i i res)
    (Cursor (length xs) (length xs)
       (res ++ ((λ t, Segment t unchanged) <$> drop i xs))).
Proof.
  revert i res. induction n as [|n IH]; intros i res Hn Hi.
  - assert (i = length xs) as -> by lia.
    rewrite drop_all, app_nil_r. apply runs_exit, continues_false. simpl. lia.
  - destruct (lookup_lt_is_Some_2 xs i) as [t Ht]; [lia|].
    apply runs_iter; [apply continues_true; simpl; lia|].
    rewrite (rule_body _ _ _ _ (rule_match xs xs i i res t Ht Ht)).
    rewrite (drop_S _ _ _ Ht), fmap_cons.
    rewrite (cons_middle _ res (_ <$> _)), (assoc_L (++) res).
    apply IH; lia.
Qed.

Lemma computeDiff_same xs :
  computeDiff xs xs = (λ t, Segment t unchanged) <$> xs.
Proof.
  destruct (computeDiff_runs xs xs) as (st & Hruns & <-).
  pose proof (runs_same xs (length xs) 0 [] ltac:(lia) ltac:(lia)) as Hsame.
  by rewrite (runs_functional _ _ _ _ _ Hruns Hsame).
Qed.

(** ** Words without white space *)

Lemma split_word_plain s word :
  Forall (λ c, non_ws c = true) s → split_word word s = [word ++ s].
Proof.
  revert word. induction s as [|c s IH]; intros word Hs; simpl.
  - by rewrite app_nil_r.
  - inversion Hs as [|? ? Hc Hs']; subst. apply non_ws_true in Hc.
    rewrite Hc, IH, <-app_assoc by done. done.
Qed.

(** ** The unchanged segments inside the two sides *)

Lemma matchedOf_sublist res :
  matchedOf res `sublist_of` originalOf res ∧
  matchedOf res `sublist_of` modifiedOf res.
Proof.
  unfold matchedOf, originalOf, modifiedOf.
  induction res as [|[t ty] res [IHo IHm]]; [by split|].
  rewrite !filter_cons. simpl.
  destruct ty; repeat case_decide; rewrite ?fmap_cons;
    try (exfalso; intuition discriminate);
    split; first [done | by apply sublist_skip | by apply sublist_cons].
Qed.

(** ** The window is all the lookahead reads *)

Lemma window_lookup xs cur m :
  cur < m ≤ cur + 4 → xs !! m = window xs cur !! (m - S cur).
Proof.
  intros ?. unfold window. rewrite lookup_take_lt, lookup_drop by lia.
  f_equal. lia.
Qed.

Lemma firstAt_same_window xs ys t cur k :
  window xs cur = window ys cur → firstAt xs t cur k → firstAt ys t cur k.
Proof.
  intros Hw (? & Hk & Hmin). split_and!; [lia..| |].
  - by rewrite (window_lookup ys cur k), <-Hw, <-(window_lookup xs cur k) by lia.
  - intros m ?.
    rewrite (window_lookup ys cur m), <-Hw, <-(window_lookup xs cur m) by lia.
    by apply Hmin.
Qed.

Lemma lookahead_same_window xs ys t cur :
  window xs cur = window ys cur → lookahead xs t cur = lookahead ys t cur.
Proof.
  intros Hw. destruct (lookahead xs t cur) as [[k c]|] eqn:Hx.
  - apply lookahead_Some in Hx as [-> Hk]. symmetry.
    by eapply lookahead_firstAt, firstAt_same_window.
  - symmetry. apply lookahead_None. rewrite <-Hw. by apply lookahead_None.
Qed.

(** ** The number of segments *)

Lemma computeDiff_length (left right : list jsstring) :
  length left `max` length right ≤ length (computeDiff left right) ∧
  length (computeDiff left right) ≤ length left + length right.
Proof.
  pose proof (sides_length (computeDiff left right)) as Hlen.
  pose proof (matchedOf_length_le (computeDiff left right)) as Hle.
  rewrite computeDiff_original, computeDiff_modified in Hlen, Hle. lia.
Qed.

(** ** [handleCompare] on the general path *)

Lemma computeDiff_replace_single (a b : jsstring) :
  a ≠ b → computeDiff [a] [b] = [Segment a removed; Segment b added].
Proof.
  intros Hne. unfold computeDiff. simpl.
  rewrite (rule_body [a] [b] start (Cursor 1 1 [Segment a removed; Segment b added])).
  - done.
  - apply (rule_replace [a] [b] 0 0 [] a b); try done; apply not_elem_of_nil.
Qed.

Lemma trim_word (w : jsstring) :
  w ≠ [] → Forall (λ c, non_ws c = true) w → trim w ≠ [].
Proof.
  intros Hne Hw Ht. apply trim_nil in Ht.
  destruct w as [|c w]; [done|].
  inversion Hw as [|? ? Hc _]; inversion Ht as [|? ? Hc' _]; subst.
  apply non_ws_true in Hc. congruence.
Qed.

Lemma handleCompare_general (p : page) :
  trim (leftText p) ≠ [] ∨ trim (rightText p) ≠ [] →
  handleCompare p =
  Page (leftText p) (rightText p)
    (computeDiff (split (leftText p)) (split (rightText p))) true.
Proof.
  intros Hne. unfold handleCompare, falsy.
  destruct Hne; repeat case_bool_decide; simpl; congruence.
Qed.

(** X10, the texts themselves: when the texts are not both blank, the
    texts of the unchanged and removed segments that [handleCompare] sets,
    concatenated, are the left text, and those of the unchanged and added
    segments are the right text. *)
Corollary handleCompare_reconstruction (p : page) :
  trim (leftText p) ≠ [] ∨ trim (rightText p) ≠ [] →
  concat (originalOf (diffResults (handleCompare p))) = leftText p ∧
  concat (modifiedOf (diffResults (handleCompare p))) = rightText p.
Proof.
  intros Hne. rewrite handleCompare_general by done. simpl.
  rewrite computeDiff_original, computeDiff_modified.
  split; apply (proj1 (split_concat _) []).
Qed.

(** ** The examples of the specification *)

Example pure_addition :
  computeDiff [js "a"] [js "a"; js " "; js "b"] =
  [Segment (js "a") unchanged; Segment (js " ") added; Segment (js "b") added].
Proof. reflexivity. Qed.

Example lookahead_resync :
  computeDiff [js "x"; js "y"; js "z"] [js "y"; js "z"] =
  [Segment (js "x") removed; Segment (js "y") unchanged;
   Segment (js "z") unchanged].
Proof. reflexivity. Qed.

Example replacement_fallback :
  computeDiff [js "apple"] [js "banana"] =
  [Segment (js "apple") removed; Segment (js "banana") added].
Proof. reflexivity. Qed.

(** ["a"] stands at offset 5 on the right: two replacements come first,
    and the lookahead finds it from the third iteration on, as four
    additions. *)
Example match_at_offset_five :
  computeDiff [js "a"; js "b"; js "a"; js "c"]
    [js "1"; js "2"; js "3"; js "4"; js "5"; js "a"; js "c"] =
  [Segment (js "a") removed; Segment (js "1") added;
   Segment (js "b") removed; Segment (js "2") added;
   Segment (js "3") added; Segment (js "4") added; Segment (js "5") added;
   Segment (js "a") unchanged; Segment (js "c") unchanged].
Proof. reflexivity. Qed.

Example split_sentence :
  split (js "the  quick fox") =
  [js "the"; js "  "; js "quick"; js " "; js "fox"].
Proof. reflexivity. Qed.

Example split_padded :
  split (js " ab  c ") = [js ""; js " "; js "ab"; js "  "; js "c"; js " "; js ""].
Proof. reflexivity. Qed.

Example split_blank : split (js "  ") = [js ""; js "  "; js ""].
Proof. reflexivity. Qed.

Example trim_padded : trim (js "  a b ") = js "a b".
Proof. reflexivity. Qed.

(** * The claims *)

(** C1, reconstruction: for all token lists [left] and [right], the texts
    of the segments of [computeDiff left right] that are unchanged or
    removed, concatenated in output order, are the concatenation of [left],
    and the texts of those that are unchanged or added are the
    concatenation of [right]. *)
Theorem computeDiff_reconstruction (left right : list jsstring) :
  concat (originalOf (computeDiff left right)) = concat left ∧
  concat (modifiedOf (computeDiff left right)) = concat right.
Proof.
  by rewrite computeDiff_original, computeDiff_modified.
Qed.

(** C2, termination with length bounds: every iteration of the loop moves
    cursor [i], cursor [j] or both forward by at least one and none back;
    the loop entered at the start is left, with [computeDiff]'s result; and
    that result has at least [max (length left) (length right)] and at most
    [length left + length right] segments. *)
Theorem computeDiff_terminates (left right : list jsstring) :
  (∀ st, continues left right st = true →
     ci st ≤ ci (body left right st) ∧ cj st ≤ cj (body left right st) ∧
     ci st + cj st < ci (body left right st) + cj (body left right st)) ∧
  (∃ st, runs left right start st ∧ result st = computeDiff left right) ∧
  length left `max` length right ≤ length (computeDiff left right) ∧
  length (computeDiff left right) ≤ length left + length right.
Proof.
  split; [|split].
  - intros st Hc. by apply (rule_forward left right), body_rule.
  - apply computeDiff_runs.
  - apply computeDiff_length.
Qed.

(** C3, identity: for every string [s], aligning the tokens of [s] with
    themselves gives one unchanged segment per token, in the order of the
    tokens and with the token as its text, and no other segment. *)
Theorem computeDiff_identity (s : jsstring) :
  computeDiff (split s) (split s) = (λ t, Segment t unchanged) <$> split s.
Proof. apply computeDiff_same. Qed.

(** C4, window boundary: a lookahead finds its match at one of the four
    positions after the cursor, [cur + 1] to [cur + 4], and reads no entry
    beyond them (arrays with the same window give the same answer); so at a
    mismatch where neither window holds the token looked for, the iteration
    pushes [left[i]] as removed, then [right[j]] as added, and moves both
    cursors by one, whatever stands five positions ahead. *)
Theorem lookahead_window_boundary :
  (∀ xs target cur k c,
     lookahead xs target cur = Some (k, c) → cur + 1 ≤ k ≤ cur + 4) ∧
  (∀ xs ys target cur,
     window xs cur = window ys cur →
     lookahead xs target cur = lookahead ys target cur) ∧
  (∀ left right st curL curR,
     left !! ci st = Some curL → right !! cj st = Some curR → curL ≠ curR →
     curL ∉ window right (cj st) → curR ∉ window left (ci st) →
     body left right st =
     Cursor (S (ci st)) (S (cj st))
       (result st ++ [Segment curL removed; Segment curR added])).
Proof.
  split_and!.
  - intros xs target cur k c (_ & ? & _)%lookahead_Some. lia.
  - apply lookahead_same_window.
  - intros left right [i j res] curL curR ? ? ? ? ?.
    apply rule_body. by eapply rule_replace.
Qed.

(** C5, tie-break: at a mismatch where both resyncs are possible ([k] is
    the first index of the right window holding [left[i]], and the left
    window holds [right[j]], first at [k']), the iteration applies rule 4a:
    it pushes [right[j..k)] as added, then [left[i]] as unchanged, and sets
    [i] to [i + 1] and [j] to [k + 1]; it does not apply rule 4b. *)
Theorem tie_break_insert_first (left right : list jsstring) (st : cursor)
    (curL curR : jsstring) (k k' : nat) :
  left !! ci st = Some curL → right !! cj st = Some curR → curL ≠ curR →
  firstAt right curL (cj st) k → firstAt left curR (ci st) k' →
  body left right st =
    Cursor (S (ci st)) (S k)
      (result st ++ segments added right (cj st) k ++ [Segment curL unchanged]) ∧
  body left right st ≠
    Cursor (S k') (S (cj st))
      (result st ++ segments removed left (ci st) k' ++ [Segment curR unchanged]).
Proof.
  destruct st as [i j res]. simpl. intros Hl Hr Hne Hk Hk'.
  rewrite (rule_body _ _ _ _ (rule_insert left right i j res curL curR k Hl Hr Hne Hk)).
  split; [done|]. destruct Hk' as (? & _). intros [= ]. lia.
Qed.

(** C6, degenerate short-circuit: when both texts trim to the empty string,
    [handleCompare] sets the empty segment list (and hides the results); it
    does not tokenize and align, which would give a segment list that is
    not empty. *)
Theorem handleCompare_blank (p : page) :
  trim (leftText p) = [] → trim (rightText p) = [] →
  handleCompare p = Page (leftText p) (rightText p) [] false ∧
  computeDiff (split (leftText p)) (split (rightText p)) ≠ [].
Proof.
  intros Hl Hr. unfold handleCompare. rewrite Hl, Hr. split; [done|].
  intros Hnil.
  destruct (computeDiff_length (split (leftText p)) (split (rightText p)))
    as [Hmax _].
  rewrite Hnil in Hmax. simpl in Hmax.
  pose proof (proj1 (split_length (leftText p)) []). unfold split in Hmax. lia.
Qed.

(** C7, tokenizer round trip: for every string [s], the tokens of [s]
    concatenated in order are [s]. *)
Theorem split_roundtrip (s : jsstring) : concat (split s) = s.
Proof. apply (proj1 (split_concat s) []). Qed.

(** C8 as stated fails: the tokens of [" a"] are [""], [" "] and ["a"], and
    the first of them is empty. *)
Lemma token_shape_leading_space : ¬ token_shape (js " a").
Proof.
  intros H. by destruct (H [] [] [js " "; js "a"] eq_refl) as [Hne _].
Qed.

(** C8, amended: every token stands in the string between the tokens
    before it and those after it; a token at an even index of the array is
    a maximal run of code units that are not white space, and may be empty
    only as the first or the last token; a token at an odd index is a
    maximal run of white space and is not empty. *)
Theorem split_token_runs (s : jsstring) (pre : list jsstring) (t : jsstring)
    (post : list jsstring) :
  split s = pre ++ t :: post →
  s = concat pre ++ t ++ concat post ∧
  if Nat.even (length pre)
  then maximal_run non_ws (concat pre) t (concat post) ∧
       (t = [] → pre = [] ∨ post = [])
  else maximal_run is_ws (concat pre) t (concat post) ∧ t ≠ [].
Proof.
  intros Hs. split.
  - rewrite <-(proj1 (split_concat s) []) at 1. fold (split s).
    by rewrite Hs, concat_app.
  - apply (proj1 (split_runs s) []) in Hs; [|done..].
    simpl in Hs. destruct (Nat.even (length pre)); [|done].
    destruct Hs as [? Ht]. split; [done|]. intros [[? _]|?]%Ht; auto.
Qed.

(** C9, the empty token on the general path: the empty string has the one
    token [""]; when one text is empty and the other does not trim to the
    empty string, [handleCompare] aligns that token with the tokens of the
    other text; and against a word [w] without white space the result is
    [""] removed, then [w] added. *)
Theorem empty_token_quirk :
  split [] = [[]] ∧
  (∀ p, leftText p = [] → trim (rightText p) ≠ [] →
     handleCompare p =
     Page [] (rightText p) (computeDiff [[]] (split (rightText p))) true) ∧
  (∀ p, rightText p = [] → trim (leftText p) ≠ [] →
     handleCompare p =
     Page (leftText p) [] (computeDiff (split (leftText p)) [[]]) true) ∧
  (∀ p w, leftText p = [] → rightText p = w →
     w ≠ [] → Forall (λ c, non_ws c = true) w →
     handleCompare p = Page [] w [Segment [] removed; Segment w added] true).
Proof.
  split_and!.
  - done.
  - intros p Hl Hr. rewrite handleCompare_general by auto. by rewrite Hl.
  - intros p Hr Hl. rewrite handleCompare_general by auto. by rewrite Hr.
  - intros p w Hl Hr Hne Hw. rewrite handleCompare_general.
    + rewrite Hl, Hr.
      replace (split w) with [w] by (unfold split; by rewrite split_word_plain).
      change (split []) with [[] : jsstring].
      by rewrite computeDiff_replace_single.
    + right. rewrite Hr. by apply trim_word.
Qed.

(** C10, the unchanged segments trace a common subsequence: their texts, in
    output order, are a subsequence of [left] and of [right]; each stands
    for a pair of positions, one in each input, that hold its text, and
    these pairs increase strictly in both positions along the output. *)
Theorem unchanged_common_subsequence (left right : list jsstring) :
  matchedOf (computeDiff left right) `sublist_of` left ∧
  matchedOf (computeDiff left right) `sublist_of` right ∧
  ∃ ms, matching left right ms (matchedOf (computeDiff left right)) ∧
        ascending ms.
Proof.
  pose proof (matchedOf_sublist (computeDiff left right)) as [Ho Hm].
  rewrite computeDiff_original in Ho. rewrite computeDiff_modified in Hm.
  split_and!; [done..|].
  destruct (computeDiff_aligned left right) as (st & <- & Hal & _).
  destruct (al_matched _ _ _ Hal) as (ms & ? & ? & _). eauto.
Qed.

(** * The claims at concrete inputs *)

(** One iteration on ["x y z"] against ["y z"]: the loop goes on from the
    start, and the iteration (rule 4b) moves [i] to [2] and [j] to [1]. *)
Lemma computeDiff_terminates_witness :
  continues [js "x"; js "y"; js "z"] [js "y"; js "z"] start = true ∧
  ci start + cj start <
  ci (body [js "x"; js "y"; js "z"] [js "y"; js "z"] start) +
  cj (body [js "x"; js "y"; js "z"] [js "y"; js "z"] start).
Proof.
  split; [reflexivity|].
  apply (proj1 (computeDiff_terminates [js "x"; js "y"; js "z"] [js "y"; js "z"])
           start).
  reflexivity.
Defined.

(** The token ["a"] of the left input stands five positions ahead on the
    right: the first iteration is a replacement all the same. *)
Lemma lookahead_window_boundary_witness :
  [js "1"; js "2"; js "3"; js "4"; js "5"; js "a"] !! 5 = Some (js "a") ∧
  body [js "a"; js "b"] [js "1"; js "2"; js "3"; js "4"; js "5"; js "a"] start =
  Cursor 1 1 [Segment (js "a") removed; Segment (js "1") added].
Proof.
  split; [reflexivity|].
  apply (proj2 (proj2 lookahead_window_boundary)
           [js "a"; js "b"] [js "1"; js "2"; js "3"; js "4"; js "5"; js "a"]
           start (js "a") (js "1")).
  - reflexivity.
  - reflexivity.
  - vm_compute. discriminate.
  - apply (bool_decide_unpack _). vm_compute. exact I.
  - apply (bool_decide_unpack _). vm_compute. exact I.
Defined.

(** ["x"] comes back at index 1 on the right and ["y"] at index 2 on the
    left: the iteration takes the one on the right. *)
Lemma tie_break_insert_first_witness :
  body [js "x"; js "b"; js "y"] [js "y"; js "x"; js "z"] start =
  Cursor 1 2 [Segment (js "y") added; Segment (js "x") unchanged].
Proof.
  apply (tie_break_insert_first
           [js "x"; js "b"; js "y"] [js "y"; js "x"; js "z"] start
           (js "x") (js "y") 1 2).
  - reflexivity.
  - reflexivity.
  - vm_compute. discriminate.
  - split; [simpl; lia|]. split; [reflexivity|]. simpl. intros m Hm. lia.
  - split; [simpl; lia|]. split; [reflexivity|]. simpl. intros m Hm.
    assert (m = 1) as -> by lia. vm_compute. discriminate.
Defined.

(** A blank left text and an empty right text. *)
Lemma handleCompare_blank_witness :
  diffResults (handleCompare (Page (js "  ") (js "") [] true)) = [].
Proof.
  apply (f_equal diffResults
           (proj1 (handleCompare_blank (Page (js "  ") (js "") [] true)
                     eq_refl eq_refl))).
Defined.

(** The token ["ab"] of [" ab  c "], at index 2. *)
Lemma split_token_runs_witness :
  maximal_run non_ws (js " ") (js "ab") (js "  c ").
Proof.
  apply (proj2 (split_token_runs (js " ab  c ") [js ""; js " "] (js "ab")
                  [js "  "; js "c"; js " "; js ""] eq_refl)).
Defined.

(** The empty text against the word ["word"]. *)
Lemma empty_token_quirk_witness :
  handleCompare (Page (js "") (js "word") [] false) =
  Page (js "") (js "word") [Segment (js "") removed; Segment (js "word") added] true.
Proof.
  apply (proj2 (proj2 (proj2 empty_token_quirk))
           (Page (js "") (js "word") [] false) (js "word")).
  - reflexivity.
  - reflexivity.
  - vm_compute. discriminate.
  - vm_compute. repeat constructor.
Defined.

(** * Further properties: lemmas *)

(** ** The loop on longer arrays *)

Section Shift.
Variables (p q : list jsstring) (pre : list DiffSegment).
Variables (l r : list jsstring).

Lemma lookup_shift (xs ys : list jsstring) i :
  (xs ++ ys) !! (length xs + i) = ys !! i.
Proof. rewrite lookup_app_r by lia. f_equal. lia. Qed.

Lemma window_shift (xs ys : list jsstring) cur :
  window (xs ++ ys) (length xs + cur) = window ys cur.
Proof.
  unfold window. f_equal.
  replace (S (length xs + cur)) with (length xs + S cur) by lia.
  apply drop_app_add.
Qed.

Lemma firstAt_shift (xs ys : list jsstring) t cur k :
  firstAt ys t cur k → firstAt (xs ++ ys) t (length xs + cur) (length xs + k).
Proof.
  intros (? & Hk & Hmin). split_and!; [lia..| |].
  - by rewrite lookup_shift.
  - intros m ?. replace m with (length xs + (m - length xs)) by lia.
    rewrite lookup_shift. apply Hmin. lia.
Qed.

Lemma segments_shift ty (xs ys : list jsstring) from to :
  segments ty (xs ++ ys) (length xs + from) (length xs + to) =
  segments ty ys from to.
Proof.
  unfold segments. rewrite drop_app_add. do 2 f_equal. lia.
Qed.

Lemma continues_shift st :
  continues (p ++ l) (q ++ r) (shift p q pre st) = continues l r st.
Proof.
  unfold continues, shift. simpl. rewrite !length_app.
  f_equal; apply bool_decide_ext; lia.
Qed.

Lemma rule_shift st st' :
  rule l r st st' →
  rule (p ++ l) (q ++ r) (shift p q pre st) (shift p q pre st').
Proof.
  unfold shift.
  intros [i j res t ? Ht|i j res t ? Ht|i j res t Hl Hr
         |i j res cl cr k Hl Hr ? Hk|i j res cl cr k Hl Hr ? ? Hk
         |i j res cl cr Hl Hr ? ? ?]; simpl; rewrite ?(assoc_L (++) pre).
  - replace (length q + S j) with (S (length q + j)) by lia.
    apply rule_left_exhausted; [rewrite length_app; lia|by rewrite lookup_shift].
  - replace (length p + S i) with (S (length p + i)) by lia.
    apply rule_right_exhausted; [rewrite length_app; lia|by rewrite lookup_shift].
  - replace (length p + S i) with (S (length p + i)) by lia.
    replace (length q + S j) with (S (length q + j)) by lia.
    apply rule_match; by rewrite lookup_shift.
  - replace (length p + S i) with (S (length p + i)) by lia.
    replace (length q + S k) with (S (length q + k)) by lia.
    rewrite <-(segments_shift added q r j k).
    eapply rule_insert; rewrite ?lookup_shift; try done.
    by apply firstAt_shift.
  - replace (length p + S k) with (S (length p + k)) by lia.
    replace (length q + S j) with (S (length q + j)) by lia.
    rewrite <-(segments_shift removed p l i k).
    eapply rule_delete; rewrite ?lookup_shift, ?window_shift; try done.
    by apply firstAt_shift.
  - replace (length p + S i) with (S (length p + i)) by lia.
    replace (length q + S j) with (S (length q + j)) by lia.
    eapply rule_replace; rewrite ?lookup_shift, ?window_shift; done.
Qed.

Lemma runs_shift st st' :
  runs l r st st' →
  runs (p ++ l) (q ++ r) (shift p q pre st) (shift p q pre st').
Proof.
  induction 1 as [st Hc|st st' Hc _ IH].
  - apply runs_exit. by rewrite continues_shift.
  - apply runs_iter; [by rewrite continues_shift|].
    by rewrite (rule_body _ _ _ _ (rule_shift _ _ (body_rule _ _ _ Hc))).
Qed.

(** The loop entered behind the prefixes pushes what [computeDiff] gives
    for the rest. *)
Lemma runs_from_prefix st :
  runs (p ++ l) (q ++ r) (Cursor (length p) (length q) pre) st →
  result st = pre ++ computeDiff l r.
Proof.
  intros Hruns. destruct (computeDiff_runs l r) as (st0 & Hruns0 & <-).
  apply runs_shift in Hruns0. unfold shift at 1 in Hruns0. simpl in Hruns0.
  rewrite !Nat.add_0_r, app_nil_r in Hruns0.
  by rewrite (runs_functional _ _ _ _ _ Hruns Hruns0).
Qed.
End Shift.

(** The first iteration, then [computeDiff] on what the cursors left. *)
Lemma computeDiff_unfold (l r : list jsstring) i j delta :
  rule l r start (Cursor i j delta) →
  computeDiff l r = delta ++ computeDiff (drop i l) (drop j r).
Proof.
  intros Hrule.
  destruct (rule_advance l r _ _ Hrule) as (d & Hd & [_ Hi] & [_ Hj] & _);
    [simpl; lia..|]. simpl in *.
  destruct (computeDiff_runs l r) as (st & Hruns & <-).
  destruct Hruns as [? Hc|? ? _ Hruns].
  { apply rule_continues in Hrule. congruence. }
  rewrite (rule_body _ _ _ _ Hrule) in Hruns.
  apply (runs_from_prefix (take i l) (take j r)).
  by rewrite !take_drop, !length_take_le.
Qed.

(** ** [computeDiff] by its first iteration *)

Lemma computeDiff_nil_l (r : list jsstring) :
  computeDiff [] r = (λ t, Segment t added) <$> r.
Proof.
  induction r as [|t r IH]; [done|].
  rewrite (computeDiff_unfold [] (t :: r) 0 1 [Segment t added]).
  - cbn [skipn app]. by rewrite ?drop_0, IH.
  - by apply (rule_left_exhausted [] (t :: r) 0 0 []).
Qed.

Lemma computeDiff_nil_r (l : list jsstring) :
  computeDiff l [] = (λ t, Segment t removed) <$> l.
Proof.
  induction l as [|t l IH]; [done|].
  rewrite (computeDiff_unfold (t :: l) [] 1 0 [Segment t removed]).
  - cbn [skipn app]. by rewrite ?drop_0, IH.
  - by apply (rule_right_exhausted (t :: l) [] 0 0 []).
Qed.

Lemma computeDiff_match (t : jsstring) (l r : list jsstring) :
  computeDiff (t :: l) (t :: r) = Segment t unchanged :: computeDiff l r.
Proof.
  rewrite (computeDiff_unfold (t :: l) (t :: r) 1 1 [Segment t unchanged]).
  - cbn [skipn app]. by rewrite !drop_0.
  - by apply (rule_match (t :: l) (t :: r) 0 0 []).
Qed.


Lemma segments_prefix ty (xs ys : list jsstring) :
  segments ty (xs ++ ys) 0 (length xs) = (λ t, Segment t ty) <$> xs.
Proof.
  unfold segments. by rewrite drop_0, Nat.sub_0_r, take_app_length.
Qed.

Lemma firstAt_behind (xs ys : list jsstring) (t : jsstring) :
  xs ≠ [] → length xs ≤ 4 → t ∉ xs → firstAt (xs ++ t :: ys) t 0 (length xs).
Proof.
  intros Hne Hlen Hnot.
  assert (0 < length xs) by (destruct xs; [done|simpl; lia]).
  split_and!; [lia..| |].
  - rewrite lookup_app_r by done. by rewrite Nat.sub_diag.
  - intros m ? Hm. apply Hnot. rewrite lookup_app_l in Hm by lia.
    by eapply list_elem_of_lookup_2.
Qed.

Lemma all_unchanged_sides (res : list DiffSegment) :
  Forall (λ s, type s = unchanged) res →
  originalOf res = text <$> res ∧ modifiedOf res = text <$> res.
Proof.
  unfold originalOf, modifiedOf.
  induction 1 as [|s res Hs _ [IHo IHm]]; [done|].
  rewrite !filter_cons. repeat case_decide; rewrite ?fmap_cons, ?IHo, ?IHm;
    solve [done | exfalso; auto].
Qed.

(** ** More on [split] *)


Lemma split_sep_blank s run :
  Forall (λ c, is_ws c = true) s → split_sep run s = [run ++ s; []].
Proof.
  revert run. induction s as [|c s IH]; intros run Hs; simpl.
  - by rewrite app_nil_r.
  - inversion Hs as [|? ? Hc Hs']; subst.
    rewrite Hc, IH, <-app_assoc by done. done.
Qed.

Lemma split_word_single s word :
  length (split_word word s) = 1 → Forall (λ c, non_ws c = true) s.
Proof.
  revert word. induction s as [|c s IH]; intros word; simpl; [by constructor|].
  destruct (is_ws c) eqn:Hc.
  - pose proof (proj2 (split_length s) [c]). simpl. lia.
  - intros ?%IH. constructor; [by apply non_ws_true|done].
Qed.

Lemma split_inj a b : split a = split b → a = b.
Proof.
  intros H. apply (f_equal (@concat char16)) in H.
  by rewrite !(proj1 (split_concat _) []) in H.
Qed.

(** ** The state of the page *)

Lemma handleCompare_shown_true (p : page) :
  showResults (handleCompare p) = true → diffResults (handleCompare p) ≠ [].
Proof.
  unfold handleCompare.
  destruct (falsy (trim (leftText p)) && falsy (trim (rightText p)));
    simpl; [done|]. intros _ Hnil.
  destruct (computeDiff_length (split (leftText p)) (split (rightText p)))
    as [Hmax _].
  rewrite Hnil in Hmax. simpl in Hmax.
  pose proof (proj1 (split_length (leftText p)) []). unfold split in Hmax. lia.
Qed.

Lemma handleCompare_shown_false (p : page) :
  showResults (handleCompare p) = false → diffResults (handleCompare p) = [].
Proof.
  unfold handleCompare.
  by destruct (falsy (trim (leftText p)) && falsy (trim (rightText p))).
Qed.

Lemma perform_shown (p : page) (a : action) :
  (showResults p = true ↔ diffResults p ≠ []) →
  (showResults (perform p a) = true ↔ diffResults (perform p a) ≠ []).
Proof.
  intros Hp.
  assert (showResults (handleCompare p) = true ↔
          diffResults (handleCompare p) ≠ []) as Hcmp.
  { split; [apply handleCompare_shown_true|].
    destruct (showResults (handleCompare p)) eqn:Hs; [done|].
    by intros []; apply handleCompare_shown_false. }
  destruct a as [v|v|e| |]; simpl; try done.
  unfold handleKeyDown.
  by destruct (bool_decide (key e = js "Enter") && (ctrlKey e || metaKey e)).
Qed.

Lemma foldl_perform_shown (actions : list action) (p : page) :
  (showResults p = true ↔ diffResults p ≠ []) →
  (showResults (foldl perform p actions) = true ↔
   diffResults (foldl perform p actions) ≠ []).
Proof.
  revert p. induction actions as [|a actions IH]; intros p Hp; [done|].
  simpl. by apply IH, perform_shown.
Qed.

(** * Further properties of the code *)


(** X1, the sides token by token: the texts of the unchanged and removed
    segments are the tokens of [left], one segment per token and in order,
    and the texts of the unchanged and added segments are the tokens of
    [right]; no segment joins or cuts tokens. *)
Theorem computeDiff_tokens (left right : list jsstring) :
  originalOf (computeDiff left right) = left ∧
  modifiedOf (computeDiff left right) = right.
Proof. split; [apply computeDiff_original|apply computeDiff_modified]. Qed.


(** X3, the number of segments: the segments of the result, counted with
    the unchanged ones twice, are as many as the tokens of both inputs. *)
Theorem computeDiff_count (left right : list jsstring) :
  length (computeDiff left right) + length (matchedOf (computeDiff left right)) =
  length left + length right.
Proof.
  rewrite sides_length. by rewrite computeDiff_original, computeDiff_modified.
Qed.

(** X4, no change: all segments of the result are unchanged exactly when
    the two token lists are equal. *)
Theorem computeDiff_unchanged_iff (left right : list jsstring) :
  Forall (λ s, type s = unchanged) (computeDiff left right) ↔ left = right.
Proof.
  split.
  - intros [Ho Hm]%all_unchanged_sides.
    rewrite computeDiff_original in Ho. rewrite computeDiff_modified in Hm.
    congruence.
  - intros <-. rewrite computeDiff_same. apply Forall_fmap.
    by apply Forall_true.
Qed.

(** X5, common prefix: tokens that open both inputs come out as unchanged
    segments, followed by the result for the rest of the inputs. *)
Theorem computeDiff_common_prefix (p left right : list jsstring) :
  computeDiff (p ++ left) (p ++ right) =
  ((λ t, Segment t unchanged) <$> p) ++ computeDiff left right.
Proof.
  induction p as [|t p IH]; [done|].
  simpl. by rewrite computeDiff_match, IH.
Qed.

(** X6, text added or removed at the end: when one input is the other with
    tokens appended, the result is the shared tokens unchanged and then the
    appended ones, all added or all removed; in particular an empty input
    gives the other input's tokens, all added or all removed. *)
Theorem computeDiff_appended (xs ys : list jsstring) :
  computeDiff xs (xs ++ ys) =
    ((λ t, Segment t unchanged) <$> xs) ++ ((λ t, Segment t added) <$> ys) ∧
  computeDiff (xs ++ ys) xs =
    ((λ t, Segment t unchanged) <$> xs) ++ ((λ t, Segment t removed) <$> ys).
Proof.
  split.
  - rewrite <-(app_nil_r xs) at 1.
    by rewrite computeDiff_common_prefix, computeDiff_nil_l.
  - rewrite <-(app_nil_r xs) at 2.
    by rewrite computeDiff_common_prefix, computeDiff_nil_r.
Qed.

(** X7, a short insertion: when the first token [a] of [left] comes back on
    the right after one to four other tokens [ins], these are pushed as
    added and [a] as unchanged, and the result goes on with the rest of
    both inputs. *)
Theorem computeDiff_insertion (a : jsstring) (ins left right : list jsstring) :
  ins ≠ [] → length ins ≤ 4 → a ∉ ins →
  computeDiff (a :: left) (ins ++ a :: right) =
  ((λ t, Segment t added) <$> ins) ++
  Segment a unchanged :: computeDiff left right.
Proof.
  intros Hne Hlen Hnot.
  destruct ins as [|b ins'] eqn:Hins; [done|]. rewrite <-Hins in *.
  assert (a ≠ b) as Hab by (intros ->; apply Hnot; rewrite Hins; left).
  rewrite (computeDiff_unfold (a :: left) (ins ++ a :: right) 1 (S (length ins))
             (segments added (ins ++ a :: right) 0 (length ins) ++
              [Segment a unchanged])).
  - rewrite segments_prefix, <-app_assoc.
    replace (S (length ins)) with (length ins + 1) by lia.
    rewrite drop_app_add. cbn [skipn app]. by rewrite !drop_0.
  - apply (rule_insert (a :: left) (ins ++ a :: right) 0 0 [] a b);
      [done|by rewrite Hins|done|by apply firstAt_behind].
Qed.

(** X8, a short deletion: when the first token [b] of [right] comes back on
    the left after one to four other tokens, the first of which is not
    among the next four tokens of [right], these are pushed as removed and
    [b] as unchanged, and the result goes on with the rest of both
    inputs. *)
Theorem computeDiff_deletion (a b : jsstring) (del left right : list jsstring) :
  length del < 4 → b ∉ a :: del → a ∉ take 4 right →
  computeDiff (a :: del ++ b :: left) (b :: right) =
  ((λ t, Segment t removed) <$> a :: del) ++
  Segment b unchanged :: computeDiff left right.
Proof.
  intros Hlen Hnot Hwin.
  assert (a ≠ b) as Hab by (intros ->; apply Hnot; left).
  change (a :: del ++ b :: left) with ((a :: del) ++ b :: left).
  rewrite (computeDiff_unfold ((a :: del) ++ b :: left) (b :: right)
             (S (length (a :: del))) 1
             (segments removed ((a :: del) ++ b :: left) 0 (length (a :: del)) ++
              [Segment b unchanged])).
  - rewrite segments_prefix, <-app_assoc.
    replace (S (length (a :: del))) with (length (a :: del) + 1) by lia.
    rewrite drop_app_add. cbn [skipn app]. by rewrite !drop_0.
  - apply (rule_delete ((a :: del) ++ b :: left) (b :: right) 0 0 [] a b);
      [done|done|done|done|].
    apply firstAt_behind; [done|simpl; lia|done].
Qed.

(** X9, a replacement: when the first tokens differ and neither is among
    the next four tokens of the other input, they are pushed as removed and
    added, and the result goes on with the rest of both inputs. *)
Theorem computeDiff_replacement (a b : jsstring) (left right : list jsstring) :
  a ≠ b → a ∉ take 4 right → b ∉ take 4 left →
  computeDiff (a :: left) (b :: right) =
  Segment a removed :: Segment b added :: computeDiff left right.
Proof.
  intros Hab Ha Hb.
  rewrite (computeDiff_unfold (a :: left) (b :: right) 1 1
             [Segment a removed; Segment b added]).
  - cbn [skipn app]. by rewrite !drop_0.
  - by apply (rule_replace (a :: left) (b :: right) 0 0 [] a b).
Qed.

(** X11, when results are shown: after [handleCompare] the results are
    hidden exactly when both texts hold white space only, and the segment
    list is empty exactly when the results are hidden. *)
Theorem handleCompare_shown (p : page) :
  (showResults (handleCompare p) = false ↔
   Forall (λ c, is_ws c = true) (leftText p) ∧
   Forall (λ c, is_ws c = true) (rightText p)) ∧
  (diffResults (handleCompare p) = [] ↔ showResults (handleCompare p) = false).
Proof.
  split.
  - rewrite <-!trim_nil. unfold handleCompare, falsy.
    repeat case_bool_decide; simpl; (split; [done|by intros [? ?]]).
  - split; [|apply handleCompare_shown_false].
    destruct (showResults (handleCompare p)) eqn:Hs; [|done].
    by intros ?%handleCompare_shown_true.
Qed.

(** X12, equal texts: when the texts are not both blank, all segments that
    [handleCompare] sets are unchanged exactly when the two texts are the
    same string. *)
Theorem handleCompare_unchanged_iff (p : page) :
  trim (leftText p) ≠ [] ∨ trim (rightText p) ≠ [] →
  (Forall (λ s, type s = unchanged) (diffResults (handleCompare p)) ↔
   leftText p = rightText p).
Proof.
  intros Hne. rewrite handleCompare_general by done. simpl. split.
  - intros [Ho Hm]%all_unchanged_sides.
    rewrite computeDiff_original in Ho. rewrite computeDiff_modified in Hm.
    apply split_inj. congruence.
  - intros ->. rewrite computeDiff_same. apply Forall_fmap. by apply Forall_true.
Qed.

(** X13, the message that is never shown: after any sequence of typing,
    key presses and clicks on the fresh page, results are shown exactly
    when the segment list is not empty; so the results region never holds
    the paragraph [No differences found.]. *)
Theorem no_differences_never_shown (actions : list action) :
  (showResults (after actions) = true ↔ diffResults (after actions) ≠ []) ∧
  renderResults (after actions) ≠ Some NoDifferences.
Proof.
  assert (showResults (after actions) = true ↔ diffResults (after actions) ≠ [])
    as Hinv by (by apply foldl_perform_shown).
  split; [done|]. unfold renderResults.
  destruct (showResults (after actions)); [|done].
  case_decide as Hlen; [|done].
  destruct (proj1 Hinv eq_refl). by apply length_zero_iff_nil.
Qed.


(** X15, a single token: [split] gives the one-element array holding the
    string itself exactly when the string holds no white space. *)
Theorem split_single_iff (s : jsstring) :
  split s = [s] ↔ Forall (λ c, non_ws c = true) s.
Proof.
  split.
  - intros Hs. apply (split_word_single s []). unfold split in Hs. by rewrite Hs.
  - intros Hs. unfold split. by rewrite split_word_plain.
Qed.

(** X16, a blank text: a string that is not empty and holds white space
    only splits into the empty token, the string itself and the empty
    token. *)
Theorem split_blank_text (s : jsstring) :
  s ≠ [] → Forall (λ c, is_ws c = true) s → split s = [[]; s; []].
Proof.
  intros Hne Hs. destruct s as [|c s]; [done|].
  inversion Hs as [|? ? Hc Hs']; subst.
  unfold split. simpl. rewrite Hc. by rewrite split_sep_blank.
Qed.

(** X17, what the lookahead finds: the scan answers with an index exactly
    when that index is the first of the window, [cur + 1] to [cur + 4],
    whose entry is the token looked for, and the candidate it hands over is
    that token; it answers with none exactly when the window does not hold
    the token. *)
Theorem lookahead_first_match (xs : list jsstring) (target : jsstring)
    (cur : nat) :
  (∀ k c, lookahead xs target cur = Some (k, c) ↔
          c = target ∧ firstAt xs target cur k) ∧
  (lookahead xs target cur = None ↔ target ∉ window xs cur).
Proof.
  split; [|apply lookahead_None].
  intros k c. split; [apply lookahead_Some|].
  intros [-> Hk]. by apply lookahead_firstAt.
Qed.

(** * The further properties at concrete inputs *)


(** Two tokens put in ahead of ["a"]. *)
Lemma computeDiff_insertion_witness :
  computeDiff [js "a"; js "c"] [js "x"; js "y"; js "a"; js "c"] =
  [Segment (js "x") added; Segment (js "y") added] ++
  Segment (js "a") unchanged :: computeDiff [js "c"] [js "c"].
Proof.
  apply (computeDiff_insertion (js "a") [js "x"; js "y"] [js "c"] [js "c"]).
  - discriminate.
  - simpl. lia.
  - apply (bool_decide_unpack _). vm_compute. exact I.
Defined.

(** Two tokens taken out ahead of ["z"]. *)
Lemma computeDiff_deletion_witness :
  computeDiff [js "x"; js "y"; js "z"; js "w"] [js "z"; js "w"] =
  [Segment (js "x") removed; Segment (js "y") removed] ++
  Segment (js "z") unchanged :: computeDiff [js "w"] [js "w"].
Proof.
  apply (computeDiff_deletion (js "x") (js "z") [js "y"] [js "w"] [js "w"]).
  - simpl. lia.
  - apply (bool_decide_unpack _). vm_compute. exact I.
  - apply (bool_decide_unpack _). vm_compute. exact I.
Defined.

(** ["a"] comes back on the right, but five tokens on. *)
Lemma computeDiff_replacement_witness :
  computeDiff [js "a"; js "b"]
    [js "1"; js "2"; js "3"; js "4"; js "5"; js "a"] =
  Segment (js "a") removed :: Segment (js "1") added ::
  computeDiff [js "b"] [js "2"; js "3"; js "4"; js "5"; js "a"].
Proof.
  apply (computeDiff_replacement (js "a") (js "1") [js "b"]
           [js "2"; js "3"; js "4"; js "5"; js "a"]).
  - vm_compute. discriminate.
  - apply (bool_decide_unpack _). vm_compute. exact I.
  - apply (bool_decide_unpack _). vm_compute. exact I.
Defined.

(** ["a b"] against ["a  c"]. *)
Lemma handleCompare_reconstruction_witness :
  concat (originalOf (diffResults (handleCompare (Page (js "a b") (js "a  c") [] false)))) =
  js "a b" ∧
  concat (modifiedOf (diffResults (handleCompare (Page (js "a b") (js "a  c") [] false)))) =
  js "a  c".
Proof.
  apply (handleCompare_reconstruction (Page (js "a b") (js "a  c") [] false)).
  left. vm_compute. discriminate.
Defined.

Lemma handleCompare_unchanged_iff_witness :
  Forall (λ s, type s = unchanged)
    (diffResults (handleCompare (Page (js "a b") (js "a  c") [] false))) ↔
  js "a b" = js "a  c".
Proof.
  apply (handleCompare_unchanged_iff (Page (js "a b") (js "a  c") [] false)).
  left. vm_compute. discriminate.
Defined.

(** Two blanks. *)
Lemma split_blank_text_witness : split (js "  ") = [[]; js "  "; []].
Proof.
  apply (split_blank_text (js "  ")).
  - vm_compute. discriminate.
  - vm_compute. repeat constructor.
Defined.
